(** * go-sqlite-regexp: the compiled-pattern cache behind the REGEXP function

    A shallow embedding of [regexpFunction], [ClearRegexpCache] and
    [GetCacheSize] (package [sqlite_regexp]) together with the properties
    of the cache that the specification states.

    The package keeps one process-wide variable,

      var regexpCache = struct { sync.RWMutex; cache map[string]*regexp.Regexp }

    and delegates parsing and matching to Go's [regexp] package.  That
    package is not part of the repository, so it enters the development as
    an interface ([RegexpLib]); every general theorem holds for all of its
    implementations.  [RE2Fragment] is one small implementation, used to
    run the model on concrete patterns. *)

From stdpp Require Import gmap strings list.
From Stdlib Require Import Ascii.

Local Open Scope string_scope.

(** ** The host library: [regexp.Compile] and [Regexp.MatchString] *)

Class RegexpLib := {
  (** the pointee of a [*regexp.Regexp] *)
  Regexp : Type;
  (** the non-nil values of [error] that [regexp.Compile] returns *)
  CompileError : Type;
  (** [regexp.Compile(expr)], which returns a pointer and an [error]:
      [inl] is [(re, nil)], [inr] is [(nil, err)] *)
  Compile : string -> Regexp + CompileError;
  (** [re.MatchString(s) bool] *)
  MatchString : Regexp -> string -> bool
}.

Section Cache.
Context {lib : RegexpLib}.

(** A [*regexp.Regexp].  [regexp.Compile] allocates a new object on every
    successful call; the package never mutates one, so a pointer is its
    address together with the object found there. *)
Record ptr := Ptr { addr : nat; deref : Regexp }.

(** Go's [error] result: [None] is [nil]. *)
Definition error := option CompileError.

(** The package state.  [cache] is [regexpCache.cache].  [compiles] is a
    history variable: the arguments of the calls made to [regexp.Compile]
    so far, most recent first.  A call that succeeds returns a new
    object, whose address is the number of calls made before it. *)
Record state := State {
  cache : gmap string ptr;
  compiles : list string
}.

(** [cache: make(map[string]*regexp.Regexp)] *)
Definition init : state := State ∅ [].

(** Lines 29-44 of [regexpFunction]: the value of [re] (or the error
    returned at line 38) and the state when line 46 is reached.  The
    specification calls this phase GetOrCompile. *)
Definition getOrCompile (pattern : string) (st : state)
  : (ptr + CompileError) * state :=
  match cache st !! pattern with
  | Some re => (inl re, st)
  | None =>
      match Compile pattern with
      | inr err => (inr err, State (cache st) (pattern :: compiles st))
      | inl r =>
          let re := Ptr (length (compiles st)) r in
          (inl re,
           State (<[pattern := re]> (cache st)) (pattern :: compiles st))
      end
  end.

(** [func regexpFunction(pattern, text string) (int, error)] *)
Definition regexpFunction (pattern text : string) (st : state)
  : (Z * error) * state :=
  match getOrCompile pattern st with
  | (inr err, st') => ((0%Z, Some err), st')
  | (inl re, st') =>
      if MatchString (deref re) text
      then ((1%Z, None), st')
      else ((0%Z, None), st')
  end.

(** [func ClearRegexpCache()] *)
Definition ClearRegexpCache (st : state) : state :=
  State ∅ (compiles st).

(** [func GetCacheSize() int] *)
Definition GetCacheSize (st : state) : Z :=
  Z.of_nat (size (cache st)).

(** *** Sequences of calls into the package *)

Inductive call :=
| CallRegexp (pattern text : string)
| CallClear
| CallSize.

Inductive reply :=
| RetRegexp (r : Z * error)
| RetClear
| RetSize (n : Z).

Definition exec (c : call) (st : state) : reply * state :=
  match c with
  | CallRegexp pattern text =>
      let '(r, st') := regexpFunction pattern text st in (RetRegexp r, st')
  | CallClear => (RetClear, ClearRegexpCache st)
  | CallSize => (RetSize (GetCacheSize st), st)
  end.

Fixpoint run (cs : list call) (st : state) : state :=
  match cs with
  | [] => st
  | c :: cs' => run cs' (exec c st).2
  end.

(** What the specification calls the standard pattern-match semantics:
    compile the pattern and ask the result, without any cache. *)
Definition std_match (pattern text : string) : option bool :=
  match Compile pattern with
  | inl r => Some (MatchString r text)
  | inr _ => None
  end.

(** The reference implementation of the predicate in the words of the
    specification: compile afresh on every call, return the error of a
    failed compilation, otherwise 1 for a match and 0 for none. *)
Definition regexp_uncached (pattern text : string) : Z * error :=
  match Compile pattern with
  | inr err => (0%Z, Some err)
  | inl r => if MatchString r text then (1%Z, None) else (0%Z, None)
  end.

(** Every cached object is the one [regexp.Compile] yields for its key. *)
Definition cache_sound (st : state) : Prop :=
  ∀ pattern re, cache st !! pattern = Some re →
                Compile pattern = inl (deref re).

(** The entries stored under one key. *)
Definition entries_for (pattern : string) (st : state)
  : list (string * ptr) :=
  filter (λ kv, kv.1 = pattern) (map_to_list (cache st)).

(** *** Concurrent calls

    Each critical section of [regexpFunction] is one atomic step: the
    lookup under [RLock] (lines 29-31) and the store under [Lock]
    (lines 41-43).  The compilation (line 36) and the match (line 46)
    touch no shared variable. *)

Inductive pc :=
| AtLookup                     (* before line 29 *)
| AtCompile                    (* line 36, [exists] was false *)
| AtStore (re : ptr)           (* line 41, waiting for [Lock] *)
| AtMatch (re : ptr)           (* line 46 *)
| Returned (r : Z * error).

Record thread := Thread {
  t_pattern : string;
  t_text : string;
  t_pc : pc
}.

Definition step_thread (t : thread) (st : state) : thread * state :=
  let at_ (p : pc) := Thread (t_pattern t) (t_text t) p in
  match t_pc t with
  | AtLookup =>
      match cache st !! t_pattern t with
      | Some re => (at_ (AtMatch re), st)
      | None => (at_ AtCompile, st)
      end
  | AtCompile =>
      let st' := State (cache st) (t_pattern t :: compiles st) in
      match Compile (t_pattern t) with
      | inr err => (at_ (Returned (0%Z, Some err)), st')
      | inl r => (at_ (AtStore (Ptr (length (compiles st)) r)), st')
      end
  | AtStore re =>
      (at_ (AtMatch re),
       State (<[t_pattern t := re]> (cache st)) (compiles st))
  | AtMatch re =>
      (at_ (Returned (if MatchString (deref re) (t_text t)
                      then (1%Z, None) else (0%Z, None))), st)
  | Returned _ => (t, st)
  end.

Record config := Config {
  threads : list thread;
  shared : state
}.

(** Thread [i] takes its next step. *)
Definition sched_step (i : nat) (c : config) : config :=
  match threads c !! i with
  | None => c
  | Some t =>
      let '(t', st') := step_thread t (shared c) in
      Config (<[i := t']> (threads c)) st'
  end.

(** A schedule names the thread that moves at each instant. *)
Fixpoint run_schedule (sched : list nat) (c : config) : config :=
  match sched with
  | [] => c
  | i :: sched' => run_schedule sched' (sched_step i c)
  end.

(** A call that has just been entered. *)
Definition enter (pattern text : string) : thread :=
  Thread pattern text AtLookup.

(** The object a thread is about to store, if it waits for the lock. *)
Definition pending_store (t : thread) : option ptr :=
  match t_pc t with
  | AtStore re => Some re
  | _ => None
  end.

(** The race policy in the words of the specification: when threads [i]
    and [j] both wait to store an object for the same pattern and [i]
    takes the exclusive lock first, then [j], the object of [i] is the
    one the cache keeps. *)
Definition first_writer_wins (c : config) (i j : nat) : Prop :=
  ∀ ti tj ri rj,
    threads c !! i = Some ti → threads c !! j = Some tj →
    pending_store ti = Some ri → pending_store tj = Some rj →
    t_pattern ti = t_pattern tj →
    cache (shared (run_schedule [i; j] c)) !! t_pattern ti = Some ri.

End Cache.

(** ** A small implementation of the host library

    A fragment of the RE2 syntax that Go's [regexp] accepts: literal
    characters, [.], the escapes [\d \w \s] (and [\D \W \S]), bracket
    expressions with ranges and negation, the anchors [^] and [$], the
    repetitions [* + ?] on a single character, and alternation at top
    level.  Groups are outside the fragment and are rejected.  As in Go,
    a text matches when some substring of it does. *)

Module RE2Fragment.

Local Open Scope char_scope.

Inductive atom :=
| Lit (c : ascii)
| AnyChar
| Class (neg : bool) (ranges : list (ascii * ascii))
| Bol
| Eol.

Inductive rep := Once | Star | Plus | Quest.

Definition item : Type := atom * rep.

(** alternatives, each a concatenation *)
Definition regex : Type := list (list item).

Definition digit : list (ascii * ascii) := [("0", "9")].
Definition word : list (ascii * ascii) :=
  [("0", "9"); ("A", "Z"); ("a", "z"); ("_", "_")].
Definition space : list (ascii * ascii) :=
  [(ascii_of_nat 9, ascii_of_nat 13); (" ", " ")].

Definition escape (c : ascii) : atom :=
  if (c =? "d")%char then Class false digit
  else if (c =? "D")%char then Class true digit
  else if (c =? "w")%char then Class false word
  else if (c =? "W")%char then Class true word
  else if (c =? "s")%char then Class false space
  else if (c =? "S")%char then Class true space
  else Lit c.

Definition rep_of (c : ascii) : option rep :=
  if (c =? "*")%char then Some Star
  else if (c =? "+")%char then Some Plus
  else if (c =? "?")%char then Some Quest
  else None.

(** [cur] is the current alternative and [alts] the finished ones, both
    reversed; [cls] is the bracket expression being read, if any. *)
Fixpoint parse (cs : list ascii) (cur : list item) (alts : regex)
    (cls : option (bool * list (ascii * ascii))) : regex + string :=
  match cs with
  | [] =>
      match cls with
      | Some _ => inr "missing closing ]"%string
      | None => inl (rev (rev cur :: alts))
      end
  | c :: rest =>
      match cls with
      | Some (neg, rs) =>
          if (c =? "]")%char
          then parse rest ((Class neg (rev rs), Once) :: cur) alts None
          else
            match rest with
            | d :: hi :: rest' =>
                if ((d =? "-") && negb (hi =? "]"))%char
                then parse rest' cur alts (Some (neg, (c, hi) :: rs))
                else parse rest cur alts (Some (neg, (c, c) :: rs))
            | _ => parse rest cur alts (Some (neg, (c, c) :: rs))
            end
      | None =>
          if (c =? "|")%char then parse rest [] (rev cur :: alts) None
          else if (c =? "[")%char then
            match rest with
            | n :: rest' =>
                if (n =? "^")%char
                then parse rest' cur alts (Some (true, []))
                else parse rest cur alts (Some (false, []))
            | [] => inr "missing closing ]"%string
            end
          else if (c =? "\")%char then
            match rest with
            | e :: rest' => parse rest' ((escape e, Once) :: cur) alts None
            | [] => inr "trailing backslash at end of expression"%string
            end
          else if ((c =? "(") || (c =? ")"))%char
          then inr "groups are outside the fragment"%string
          else
            match rep_of c with
            | Some r =>
                match cur with
                | [] => inr "missing argument to repetition operator"%string
                | (a, Once) :: cur' => parse rest ((a, r) :: cur') alts None
                | _ => inr "invalid nested repetition operator"%string
                end
            | None =>
                let a := if (c =? ".")%char then AnyChar
                         else if (c =? "^")%char then Bol
                         else if (c =? "$")%char then Eol
                         else Lit c in
                parse rest ((a, Once) :: cur) alts None
            end
      end
  end.

Definition compile (expr : string) : regex + string :=
  parse (String.list_ascii_of_string expr) [] [] None.

Definition in_ranges (c : ascii) (rs : list (ascii * ascii)) : bool :=
  existsb (λ r, (nat_of_ascii r.1 <=? nat_of_ascii c)%nat
                && (nat_of_ascii c <=? nat_of_ascii r.2)%nat) rs.

(** A position in the text: whether it is the beginning, and what is
    left to read. *)
Definition pos : Type := bool * list ascii.

(** The positions an atom can lead to from [p]. *)
Definition atom_step (a : atom) (p : pos) : list pos :=
  match a with
  | Bol => if p.1 then [p] else []
  | Eol => match p.2 with [] => [p] | _ => [] end
  | Lit c =>
      match p.2 with
      | x :: r => if (x =? c)%char then [(false, r)] else []
      | [] => []
      end
  | AnyChar =>
      match p.2 with
      | x :: r => if (x =? ascii_of_nat 10)%char then [] else [(false, r)]
      | [] => []
      end
  | Class neg rs =>
      match p.2 with
      | x :: r => if xorb neg (in_ranges x rs) then [(false, r)] else []
      | [] => []
      end
  end.

Fixpoint star_step (n : nat) (a : atom) (ps : list pos) : list pos :=
  match n with
  | O => ps
  | S n' => ps ++ star_step n' a (flat_map (atom_step a) ps)
  end.

Definition item_step (n : nat) (it : item) (ps : list pos) : list pos :=
  match it.2 with
  | Once => flat_map (atom_step it.1) ps
  | Star => star_step n it.1 ps
  | Plus => star_step n it.1 (flat_map (atom_step it.1) ps)
  | Quest => ps ++ flat_map (atom_step it.1) ps
  end.

Definition seq_step (n : nat) (its : list item) (ps : list pos)
  : list pos :=
  fold_left (λ ps it, item_step n it ps) its ps.

(** every place where a match may begin *)
Fixpoint starts (bol : bool) (cs : list ascii) : list pos :=
  (bol, cs) :: match cs with
               | [] => []
               | _ :: r => starts false r
               end.

Definition match_string (re : regex) (s : string) : bool :=
  let cs := String.list_ascii_of_string s in
  existsb (λ alt,
             match seq_step (S (length cs)) alt (starts true cs) with
             | [] => false
             | _ => true
             end) re.

Definition lib : RegexpLib := {|
  Regexp := regex;
  CompileError := string;
  Compile := compile;
  MatchString := match_string
|}.

End RE2Fragment.

(** ** Workloads

    Bookkeeping over sequences of calls, the cache guard shown in
    docs/architecture-and-performance.md, and interleavings in which
    [ClearRegexpCache] runs beside calls of [regexpFunction] (the README
    clears the cache from a ticker goroutine). *)

Section Workloads.
Context {lib : RegexpLib}.

(** Whether [regexp.Compile] accepts the pattern. *)
Definition valid (pattern : string) : bool :=
  match Compile pattern with
  | inl _ => true
  | inr _ => false
  end.

(** The keys one expects in the cache after the calls [cs], starting from
    the keys [acc]: every valid pattern given to [regexpFunction] is added,
    [ClearRegexpCache] forgets them all. *)
Fixpoint live_patterns (cs : list call) (acc : gset string) : gset string :=
  match cs with
  | [] => acc
  | CallRegexp pattern _ :: cs' =>
      live_patterns cs' (if valid pattern then {[pattern]} ∪ acc else acc)
  | CallClear :: cs' => live_patterns cs' ∅
  | CallSize :: cs' => live_patterns cs' acc
  end.

(** How many times [ClearRegexpCache] is called in [cs]. *)
Fixpoint clear_calls (cs : list call) : nat :=
  match cs with
  | [] => 0
  | CallClear :: cs' => S (clear_calls cs')
  | _ :: cs' => clear_calls cs'
  end.

(** How many times [regexpFunction] is called with [pattern] in [cs]. *)
Fixpoint regexp_calls (pattern : string) (cs : list call) : nat :=
  match cs with
  | [] => 0
  | CallRegexp q _ :: cs' =>
      if decide (q = pattern)
      then S (regexp_calls pattern cs')
      else regexp_calls pattern cs'
  | _ :: cs' => regexp_calls pattern cs'
  end.

(** How many times [regexp.Compile] has been called with [pattern]. *)
Definition compile_calls (pattern : string) (st : state) : nat :=
  length (filter (λ q, q = pattern) (compiles st)).


(** *** Interleavings with [ClearRegexpCache]

    The body of [ClearRegexpCache] is a single critical section (lines
    95-97), hence one atomic step beside the steps of the calls. *)

Inductive action :=
| ActStep (i : nat)
| ActClear.

Definition act (a : action) (c : config) : config :=
  match a with
  | ActStep i => sched_step i c
  | ActClear => Config (threads c) (ClearRegexpCache (shared c))
  end.

Fixpoint run_actions (acts : list action) (c : config) : config :=
  match acts with
  | [] => c
  | a :: acts' => run_actions acts' (act a c)
  end.

(** One thread per call, each about to begin, over the package state. *)
Definition start (calls : list (string * string)) (st : state) : config :=
  Config (map (λ c, enter c.1 c.2) calls) st.

(** What a thread holds is right for its arguments: the object it is about
    to store or to match with is a compilation of its pattern, and the
    result it has returned is the one of an uncached evaluation. *)
Definition thread_sound (t : thread) : Prop :=
  match t_pc t with
  | AtLookup | AtCompile => True
  | AtStore re | AtMatch re => Compile (t_pattern t) = inl (deref re)
  | Returned r => r = regexp_uncached (t_pattern t) (t_text t)
  end.

(** The steps a thread has left at most. *)
Definition pc_rank (p : pc) : nat :=
  match p with
  | AtLookup => 4
  | AtCompile => 3
  | AtStore _ => 2
  | AtMatch _ => 1
  | Returned _ => 0
  end.

(** How many steps thread [i] takes in [acts]. *)
Fixpoint steps_of (i : nat) (acts : list action) : nat :=
  match acts with
  | [] => 0
  | ActStep j :: acts' =>
      if decide (j = i) then S (steps_of i acts') else steps_of i acts'
  | ActClear :: acts' => steps_of i acts'
  end.

(** 1 when the thread works on [pattern] and may still reach line 36. *)
Definition may_compile (pattern : string) (t : thread) : nat :=
  if decide (t_pattern t = pattern)
  then match t_pc t with
       | AtLookup | AtCompile => 1
       | _ => 0
       end
  else 0.

(** How many of the calls are on [pattern]. *)
Definition callers (pattern : string) (calls : list (string * string))
  : nat :=
  length (filter (λ c, c.1 = pattern) calls).

(** The threads and the cache of a configuration are right. *)
Definition config_sound (c : config) : Prop :=
  cache_sound (shared c) ∧ Forall thread_sound (threads c).

(** The steps thread [i] of a configuration has left at most. *)
Definition thread_rank (i : nat) (c : config) : nat :=
  match threads c !! i with
  | Some t => pc_rank (t_pc t)
  | None => 0
  end.

(** The calls of [regexpFunction] made one after the other. *)
Definition seq_calls (calls : list (string * string)) : list call :=
  map (λ c, CallRegexp c.1 c.2) calls.

(** The threads of these calls once each has returned, when they are made
    one after the other from the state [st]. *)
Fixpoint seq_threads (calls : list (string * string)) (st : state)
  : list thread :=
  match calls with
  | [] => []
  | c :: calls' =>
      Thread c.1 c.2 (Returned (regexpFunction c.1 c.2 st).1)
      :: seq_threads calls' (regexpFunction c.1 c.2 st).2
  end.

(** The schedule that runs threads [k], [k+1], ... [k+n-1] one after the
    other, each through all its steps. *)
Fixpoint serial (k n : nat) : list nat :=
  match n with
  | O => []
  | S n' => ([k; k; k; k] ++ serial (S k) n')%list
  end.

End Workloads.

(** ** Registration with the database engine

    [RegisterRegexpFunction] and [OpenWithRegexp] only call into
    [database/sql] and [go-sqlite3].  [SqlHost] stands for these packages:
    the handle types, and for every call what it answers.  [conn.Raw(f)]
    either fails before calling [f] or calls [f] once with the driver
    connection and returns what [f] returns; the errors that
    [conn.Close()] and [db.Close()] return are dropped by the source. *)

Class SqlHost := {
  DB : Type;
  Conn : Type;
  DriverConn : Type;
  SQLiteConn : Type;
  HostError : Type;
  (** [driver.ErrBadConn] *)
  ErrBadConn : HostError;
  (** the type assertion of the driver connection to a SQLite connection *)
  as_sqlite : DriverConn -> option SQLiteConn;
  (** [sql.Open(driverName, dataSourceName)] *)
  sql_Open : string -> string -> DB + HostError;
  (** [db.Conn(ctx)] *)
  db_Conn : DB -> Conn + HostError;
  (** the driver connection that [conn.Raw] hands to its callback, or the
      error with which it fails before calling it *)
  conn_Raw : Conn -> DriverConn + HostError;
  (** [sqliteConn.RegisterFunc(name, impl, pure)] *)
  RegisterFunc : SQLiteConn -> string -> bool -> option HostError
}.

Section Registration.
Context {lib : RegexpLib} {host : SqlHost}.

(** The calls made into the host, in the order in which they are made. *)
Inductive host_call :=
| SqlOpen (driverName dataSourceName : string)
| DbConn (db : DB)
| ConnRaw (conn : Conn)
| SqliteRegisterFunc (sc : SQLiteConn) (name : string)
    (impl : string -> string -> state -> (Z * error) * state) (pure : bool)
| ConnClose (conn : Conn)
| DbClose (db : DB).

(** The callback given to [conn.Raw] (lines 64-72). *)
Definition register_callback (driverConn : DriverConn)
  : option HostError * list host_call :=
  match as_sqlite driverConn with
  | None => (Some ErrBadConn, [])
  | Some sqliteConn =>
      (RegisterFunc sqliteConn "regexp" true,
       [SqliteRegisterFunc sqliteConn "regexp" regexpFunction true])
  end.

(** [func RegisterRegexpFunction(db *sql.DB) error] *)
Definition RegisterRegexpFunction (db : DB)
  : option HostError * list host_call :=
  match db_Conn db with
  | inr err => (Some err, [DbConn db])
  | inl conn =>
      let '(err, calls) :=
        match conn_Raw conn with
        | inr err => (Some err, [])
        | inl driverConn => register_callback driverConn
        end in
      (* [defer conn.Close()] *)
      (err, ([DbConn db; ConnRaw conn] ++ calls ++ [ConnClose conn])%list)
  end.

(** [func OpenWithRegexp(dataSourceName string)], which returns a handle
    and an [error]; [None] is [nil] in both places. *)
Definition OpenWithRegexp (dataSourceName : string)
  : (option DB * option HostError) * list host_call :=
  match sql_Open "sqlite3" dataSourceName with
  | inr err => ((None, Some err), [SqlOpen "sqlite3" dataSourceName])
  | inl db =>
      let '(err, calls) := RegisterRegexpFunction db in
      match err with
      | Some e =>
          ((None, Some e),
           ([SqlOpen "sqlite3" dataSourceName] ++ calls ++ [DbClose db])%list)
      | None =>
          ((Some db, None),
           ([SqlOpen "sqlite3" dataSourceName] ++ calls)%list)
      end
  end.

End Registration.

(** ** Properties *)

Section Properties.
Context {lib : RegexpLib}.

Implicit Types (st : state) (pattern text : string) (cs : list call).

(** *** The three outcomes of lines 29-44 *)

Lemma getOrCompile_hit st pattern re :
  cache st !! pattern = Some re →
  getOrCompile pattern st = (inl re, st).
Proof. intros Hhit. unfold getOrCompile. by rewrite Hhit. Qed.

Lemma getOrCompile_miss st pattern r :
  cache st !! pattern = None →
  Compile pattern = inl r →
  getOrCompile pattern st
  = (inl (Ptr (length (compiles st)) r),
     State (<[pattern := Ptr (length (compiles st)) r]> (cache st))
           (pattern :: compiles st)).
Proof. intros Hmiss Hc. unfold getOrCompile. by rewrite Hmiss, Hc. Qed.

Lemma getOrCompile_fail st pattern e :
  cache st !! pattern = None →
  Compile pattern = inr e →
  getOrCompile pattern st
  = (inr e, State (cache st) (pattern :: compiles st)).
Proof. intros Hmiss Hc. unfold getOrCompile. by rewrite Hmiss, Hc. Qed.

Lemma regexpFunction_state st pattern text :
  (regexpFunction pattern text st).2 = (getOrCompile pattern st).2.
Proof.
  unfold regexpFunction.
  destruct (getOrCompile pattern st) as [[re|e] st']; [|done].
  by destruct (MatchString (deref re) text).
Qed.

(** *** Soundness of the cache contents *)

Lemma cache_sound_init : cache_sound init.
Proof. intros pattern re Hre. cbn in Hre. by rewrite lookup_empty in Hre. Qed.

Lemma cache_sound_clear st : cache_sound (ClearRegexpCache st).
Proof. intros pattern re Hre. cbn in Hre. by rewrite lookup_empty in Hre. Qed.

Lemma cache_sound_getOrCompile st pattern :
  cache_sound st → cache_sound (getOrCompile pattern st).2.
Proof.
  intros Hs. unfold getOrCompile.
  destruct (cache st !! pattern) as [re|] eqn:Hlk; [done|].
  destruct (Compile pattern) as [r|e] eqn:Hc; [|done].
  intros p q; cbn. rewrite lookup_insert.
  case_decide as Hp; [|by apply Hs].
  intros [= <-]. by subst p.
Qed.

Lemma cache_sound_exec st c :
  cache_sound st → cache_sound (exec c st).2.
Proof.
  intros Hs. destruct c as [pattern text| |]; cbn;
    [|by apply cache_sound_clear|done].
  pose proof (regexpFunction_state st pattern text) as Hst.
  destruct (regexpFunction pattern text st) as [r st']; cbn in *.
  subst st'. by apply cache_sound_getOrCompile.
Qed.

Lemma cache_sound_run cs st :
  cache_sound st → cache_sound (run cs st).
Proof.
  revert st. induction cs as [|c cs IH]; intros st Hs; [done|].
  cbn. by apply IH, cache_sound_exec.
Qed.

Lemma run_app cs1 cs2 st : run (cs1 ++ cs2) st = run cs2 (run cs1 st).
Proof.
  revert st. induction cs1 as [|c cs1 IH]; intros st; cbn; [done|].
  by rewrite IH.
Qed.

(** On a sound cache the predicate answers as a fresh compilation would. *)
Lemma regexpFunction_sound st pattern text :
  cache_sound st →
  (regexpFunction pattern text st).1 = regexp_uncached pattern text.
Proof.
  intros Hs. unfold regexpFunction, getOrCompile, regexp_uncached.
  destruct (cache st !! pattern) as [re|] eqn:Hlk.
  - rewrite (Hs _ _ Hlk). by destruct (MatchString (deref re) text).
  - destruct (Compile pattern) as [r|e]; [|done]. cbn.
    by destruct (MatchString r text).
Qed.

(** An invalid pattern is never a key of a sound cache. *)
Lemma invalid_not_cached st pattern e :
  cache_sound st → Compile pattern = inr e → cache st !! pattern = None.
Proof.
  intros Hs Hc. destruct (cache st !! pattern) as [re|] eqn:Hlk; [|done].
  rewrite (Hs _ _ Hlk) in Hc. discriminate.
Qed.

Lemma GetCacheSize_insert_fresh (m : gmap string ptr) pattern re l l' :
  m !! pattern = None →
  GetCacheSize (State (<[pattern := re]> m) l)
  = (GetCacheSize (State m l') + 1)%Z.
Proof.
  intros Hm. unfold GetCacheSize; cbn.
  rewrite map_size_insert_None by done. lia.
Qed.

(** A list without repetition whose members all equal [x]. *)
Lemma NoDup_all_eq {A} (l : list A) (x : A) :
  NoDup l → (∀ y, y ∈ l → y = x) → l = [] ∨ l = [x].
Proof.
  intros Hnd Hall. destruct l as [|a [|b l]]; [by left| |].
  - right. f_equal. apply Hall. set_solver.
  - exfalso. apply NoDup_cons in Hnd as [Hnotin _].
    apply Hnotin. rewrite (Hall a), (Hall b); set_solver.
Qed.

Lemma entries_for_lookup st pattern :
  entries_for pattern st
  = match cache st !! pattern with
    | Some re => [(pattern, re)]
    | None => []
    end.
Proof.
  unfold entries_for.
  set (l := filter _ _).
  assert (Hin : ∀ kv, kv ∈ l ↔ kv.1 = pattern ∧ cache st !! kv.1 = Some kv.2).
  { intros [k v]. unfold l. rewrite list_elem_of_filter, elem_of_map_to_list.
    naive_solver. }
  assert (Hnd : NoDup l) by (apply NoDup_filter, NoDup_map_to_list).
  clearbody l.
  destruct (cache st !! pattern) as [re|] eqn:Hlk.
  - destruct (NoDup_all_eq l (pattern, re) Hnd) as [Hl|Hl]; [| |done].
    + intros [k v] Hkv. apply Hin in Hkv as [Hk Hv].
      cbn in *. subst k. congruence.
    + exfalso. assert (Hmem : (pattern, re) ∈ l) by (by apply Hin).
      rewrite Hl in Hmem. set_solver.
  - destruct l as [|[k v] l']; [done|]. exfalso.
    destruct (Hin (k, v)) as [Hfw _].
    destruct Hfw as [Hk Hv]; [constructor|].
    cbn in *. subst k. congruence.
Qed.


(** *** Correctness of the predicate *)

(** C1. After any sequence of calls, a valid pattern makes
    [regexpFunction] return [(1, nil)] when the standard semantics
    ([regexp.Compile] then [MatchString]) report a match of the text, and
    [(0, nil)] when they report none. *)
Theorem regexpFunction_correct cs pattern text (b : bool) :
  std_match pattern text = Some b →
  (regexpFunction pattern text (run cs init)).1
  = ((if b then 1 else 0)%Z, None).
Proof.
  intros Hstd.
  rewrite regexpFunction_sound by apply cache_sound_run, cache_sound_init.
  unfold std_match in Hstd. unfold regexp_uncached.
  destruct (Compile pattern) as [r|e]; [|discriminate].
  injection Hstd as <-. by destruct (MatchString r text).
Qed.

(** C9. The result of [regexpFunction] does not depend on the calls made
    before it: after any sequence of calls it is the result of the
    reference implementation that compiles the pattern on every call, so
    any two histories give the same result. *)
Theorem regexpFunction_history_independent pattern text :
  (∀ cs, (regexpFunction pattern text (run cs init)).1
         = regexp_uncached pattern text)
  ∧ (∀ cs1 cs2, (regexpFunction pattern text (run cs1 init)).1
                = (regexpFunction pattern text (run cs2 init)).1).
Proof.
  assert (Href : ∀ cs, (regexpFunction pattern text (run cs init)).1
                       = regexp_uncached pattern text).
  { intros cs. apply regexpFunction_sound, cache_sound_run, cache_sound_init. }
  split; [done|]. intros cs1 cs2. by rewrite !Href.
Qed.

(** C10. The integer result of [regexpFunction] is 0 or 1 in every state,
    and it is 0 whenever the error is not nil. *)
Theorem regexpFunction_result_range st pattern text :
  match (regexpFunction pattern text st).1 with
  | (n, Some _) => n = 0%Z
  | (n, None) => n = 0%Z ∨ n = 1%Z
  end.
Proof.
  unfold regexpFunction.
  destruct (getOrCompile pattern st) as [[re|e] st']; [|done].
  destruct (MatchString (deref re) text); cbn; auto.
Qed.

(** *** Failed compilations *)

(** C5. When the pattern is not cached and [regexp.Compile] rejects it
    with [e], [regexpFunction] returns exactly [(0, e)]; it has called
    [regexp.Compile] once and has left the cache as it was. *)
Theorem regexpFunction_propagates_error st pattern text e :
  cache st !! pattern = None →
  Compile pattern = inr e →
  (regexpFunction pattern text st).1 = (0%Z, Some e)
  ∧ compiles (regexpFunction pattern text st).2 = pattern :: compiles st
  ∧ cache (regexpFunction pattern text st).2 = cache st.
Proof.
  intros Hmiss Hc. unfold regexpFunction.
  by rewrite (getOrCompile_fail _ _ _ Hmiss Hc).
Qed.

(** C2. After any sequence of calls, [regexpFunction] on a pattern that
    [regexp.Compile] rejects returns a non-nil error and leaves
    [GetCacheSize] unchanged.  The pattern is not stored: whatever calls
    follow, the next call with it invokes [regexp.Compile] again and
    fails again. *)
Theorem invalid_pattern_not_cached cs pattern text e :
  Compile pattern = inr e →
  let st := run cs init in
  let st' := (regexpFunction pattern text st).2 in
  (regexpFunction pattern text st).1.2 = Some e
  ∧ GetCacheSize st' = GetCacheSize st
  ∧ cache st' !! pattern = None
  ∧ ∀ later text',
      compiles (regexpFunction pattern text' (run later st')).2
      = pattern :: compiles (run later st')
      ∧ (regexpFunction pattern text' (run later st')).1.2 = Some e.
Proof.
  intros Hc st st'.
  assert (Hany : ∀ cs' text',
    (regexpFunction pattern text' (run cs' init)).1 = (0%Z, Some e)
    ∧ compiles (regexpFunction pattern text' (run cs' init)).2
      = pattern :: compiles (run cs' init)
    ∧ cache (regexpFunction pattern text' (run cs' init)).2
      = cache (run cs' init)).
  { intros cs' text'. apply regexpFunction_propagates_error; [|done].
    eapply invalid_not_cached; [|done].
    apply cache_sound_run, cache_sound_init. }
  destruct (Hany cs text) as (Hr & _ & Hcache).
  fold st in Hr, Hcache. fold st' in Hcache.
  assert (Hst' : st' = run (cs ++ [CallRegexp pattern text]) init).
  { rewrite run_app. cbn. fold st.
    unfold st'. by destruct (regexpFunction pattern text st). }
  repeat split.
  - by rewrite Hr.
  - unfold GetCacheSize. by rewrite Hcache.
  - rewrite Hcache. eapply invalid_not_cached; [|done].
    apply cache_sound_run, cache_sound_init.
  - rewrite Hst', <- run_app. apply Hany.
  - rewrite Hst', <- run_app. 
    by destruct (Hany ((cs ++ [CallRegexp pattern text]) ++ later)%list text')
      as (-> & _).
Qed.

(** *** Reuse, growth and reset *)

(** C3. For a valid pattern, two successive passes through the
    lookup-or-compile phase of [regexpFunction] yield matchers that give
    the same answer on every text (the second is the object the first
    one left in the cache), [GetCacheSize] is the same after the second
    call as after the first, and the second [regexpFunction] call answers
    as the first one does. *)
Theorem getOrCompile_twice st pattern r :
  Compile pattern = inl r →
  let s1 := (getOrCompile pattern st).2 in
  let s2 := (getOrCompile pattern s1).2 in
  (∃ m1 m2,
      (getOrCompile pattern st).1 = inl m1
      ∧ (getOrCompile pattern s1).1 = inl m2
      ∧ ∀ text, MatchString (deref m1) text = MatchString (deref m2) text)
  ∧ GetCacheSize s2 = GetCacheSize s1
  ∧ ∀ text text',
      let s1' := (regexpFunction pattern text st).2 in
      (regexpFunction pattern text' s1').1
      = (regexpFunction pattern text' st).1
      ∧ GetCacheSize (regexpFunction pattern text' s1').2
        = GetCacheSize s1'.
Proof.
  intros Hc s1 s2.
  assert (Hsecond : ∃ m, (getOrCompile pattern st).1 = inl m
                         ∧ getOrCompile pattern s1 = (inl m, s1)).
  { unfold s1. destruct (cache st !! pattern) as [re|] eqn:Hlk.
    - rewrite (getOrCompile_hit _ _ _ Hlk). cbn.
      exists re. by rewrite (getOrCompile_hit _ _ _ Hlk).
    - rewrite (getOrCompile_miss _ _ _ Hlk Hc). cbn.
      eexists. split; [done|].
      apply getOrCompile_hit. cbn. apply lookup_insert_eq. }
  destruct Hsecond as (m & Hm1 & Hm2).
  split; [|split].
  - exists m, m. by rewrite Hm2.
  - unfold s2. by rewrite Hm2.
  - intros text text' s1'.
    assert (Hs1 : s1' = s1) by apply regexpFunction_state.
    rewrite Hs1. unfold regexpFunction at 1 3. rewrite Hm2. cbn.
    unfold regexpFunction. destruct (getOrCompile pattern st) as [[re|e] st'].
    + cbn in Hm1. injection Hm1 as ->.
      by destruct (MatchString (deref m) text').
    + discriminate.
Qed.

(** C4. [ClearRegexpCache] leaves the empty mapping, so [GetCacheSize]
    is 0.  A call of [regexpFunction] that follows, on a valid pattern
    that was cached before the clear, finds no entry, calls
    [regexp.Compile] again, and brings [GetCacheSize] to 1. *)
Theorem clear_then_recompile st pattern text r :
  is_Some (cache st !! pattern) →
  Compile pattern = inl r →
  let cleared := ClearRegexpCache st in
  let st' := (regexpFunction pattern text cleared).2 in
  cache cleared = ∅
  ∧ GetCacheSize cleared = 0%Z
  ∧ cache cleared !! pattern = None
  ∧ compiles st' = pattern :: compiles cleared
  ∧ is_Some (cache st' !! pattern)
  ∧ GetCacheSize st' = 1%Z.
Proof.
  intros _ Hc cleared st'.
  assert (Hmiss : cache cleared !! pattern = None) by apply lookup_empty.
  unfold st'. rewrite regexpFunction_state.
  rewrite (getOrCompile_miss _ _ _ Hmiss Hc). cbn.
  repeat split; try done.
  - rewrite lookup_insert_eq. by eexists.
  - unfold GetCacheSize. cbn. by rewrite insert_empty, map_size_singleton.
Qed.

(** C6. After any sequence of calls the cache holds at most one entry
    under each pattern: the entries stored under a key are the single
    object found by looking the key up, or none.  The same bound holds at
    every instant of every interleaving of concurrent calls. *)
Theorem one_matcher_per_pattern cs pattern :
  (length (entries_for pattern (run cs init)) ≤ 1)%nat
  ∧ entries_for pattern (run cs init)
    = match cache (run cs init) !! pattern with
      | Some re => [(pattern, re)]
      | None => []
      end
  ∧ ∀ sched ts,
      (length (entries_for pattern
                 (shared (run_schedule sched (Config ts init)))) ≤ 1)%nat.
Proof.
  assert (Hone : ∀ st, (length (entries_for pattern st) ≤ 1)%nat).
  { intros st. rewrite entries_for_lookup.
    destruct (cache st !! pattern); cbn; lia. }
  split; [apply Hone|]. split; [apply entries_for_lookup|].
  intros sched ts. apply Hone.
Qed.

(** C7. A call of [regexpFunction] keeps every entry of the cache and
    adds at most one, so [GetCacheSize] grows by 0 or by 1.  Of the calls
    into the package only [ClearRegexpCache] removes entries, and it
    removes all of them. *)
Theorem cache_grows_monotonically st pattern text :
  let st' := (regexpFunction pattern text st).2 in
  cache st ⊆ cache st'
  ∧ (GetCacheSize st' = GetCacheSize st
     ∨ GetCacheSize st' = (GetCacheSize st + 1)%Z)
  ∧ ∀ c, match c with
         | CallClear => cache (exec c st).2 = ∅
         | _ => cache st ⊆ cache (exec c st).2
         end.
Proof.
  intros st'.
  assert (Hgrow : ∀ p, cache st ⊆ cache (getOrCompile p st).2
            ∧ (GetCacheSize (getOrCompile p st).2 = GetCacheSize st
               ∨ GetCacheSize (getOrCompile p st).2
                 = (GetCacheSize st + 1)%Z)).
  { intros p. unfold getOrCompile.
    destruct (cache st !! p) as [re|] eqn:Hlk; [by auto|].
    destruct (Compile p) as [r|e]; cbn; [|by auto].
    split; [by apply insert_subseteq|].
    right. destruct st as [m l]; cbn in *.
    by apply GetCacheSize_insert_fresh. }
  unfold st'. rewrite regexpFunction_state.
  split; [apply Hgrow|]. split; [apply Hgrow|].
  intros [p t| |]; cbn; [|done|done].
  pose proof (regexpFunction_state st p t) as Hst.
  destruct (regexpFunction p t st) as [res s]; cbn in *. subst s.
  apply Hgrow.
Qed.

(** *** Concurrent calls *)

(** A call that runs without interference goes through its steps to the
    result and the state that [regexpFunction] computes. *)
Lemma solo_run st pattern text :
  run_schedule [0; 0; 0; 0] (Config [enter pattern text] st)
  = Config [Thread pattern text
              (Returned (regexpFunction pattern text st).1)]
           (regexpFunction pattern text st).2.
Proof.
  unfold regexpFunction, getOrCompile. destruct st as [m l]. cbn.
  destruct (m !! pattern) as [re|] eqn:Hlk; cbn.
  - by destruct (MatchString (deref re) text).
  - destruct (Compile pattern) as [r|e]; cbn; [|done].
    by destruct (MatchString r text).
Qed.

(** Two calls on a valid pattern that is not cached can both miss and
    both compile before either stores. *)
Lemma race_ready st pattern x y r :
  cache st !! pattern = None →
  Compile pattern = inl r →
  run_schedule [0; 1; 0; 1] (Config [enter pattern x; enter pattern y] st)
  = Config [Thread pattern x (AtStore (Ptr (length (compiles st)) r));
            Thread pattern y (AtStore (Ptr (S (length (compiles st))) r))]
           (State (cache st) (pattern :: pattern :: compiles st)).
Proof.
  intros Hmiss Hc. repeat (progress (cbn; rewrite ?Hmiss, ?Hc)). done.
Qed.

(** C8, as the code has it.  Two calls on the same valid pattern that is
    not cached can both miss and both compile, each obtaining an object
    of its own.  Each then stores its object without looking at the cache
    again, so whichever of the two takes the exclusive lock first, its
    object is in the cache only until the other one stores: the cache
    ends with one entry for the pattern, the object of the last writer.
    Both calls return what an uncached evaluation returns. *)
Theorem race_last_writer_wins st pattern x y r :
  cache st !! pattern = None →
  Compile pattern = inl r →
  let n := length (compiles st) in
  let c4 := run_schedule [0; 1; 0; 1]
              (Config [enter pattern x; enter pattern y] st) in
  threads c4 = [Thread pattern x (AtStore (Ptr n r));
                Thread pattern y (AtStore (Ptr (S n) r))]
  ∧ cache (shared c4) !! pattern = None
  ∧ ∀ i j, (i = 0 ∧ j = 1) ∨ (i = 1 ∧ j = 0) →
      cache (shared (run_schedule [i] c4)) !! pattern = Some (Ptr (n + i) r)
      ∧ cache (shared (run_schedule [i; j] c4)) !! pattern
        = Some (Ptr (n + j) r)
      ∧ entries_for pattern (shared (run_schedule [i; j] c4))
        = [(pattern, Ptr (n + j) r)]
      ∧ threads (run_schedule [i; j; 0; 1] c4)
        = [Thread pattern x (Returned (regexp_uncached pattern x));
           Thread pattern y (Returned (regexp_uncached pattern y))].
Proof.
  intros Hmiss Hc n c4.
  unfold c4. rewrite (race_ready _ _ _ _ _ Hmiss Hc). fold n. cbn.
  split; [done|]. split; [done|].
  assert (Hn0 : n + 0 = n) by lia. assert (Hn1 : n + 1 = S n) by lia.
  intros i j [[-> ->]|[-> ->]]; rewrite entries_for_lookup; cbn;
    rewrite ?Hn0, ?Hn1, ?lookup_insert_eq; unfold regexp_uncached;
    rewrite Hc; repeat split; by destruct (MatchString r x), (MatchString r y).
Qed.

End Properties.

(** ** What the cache holds and what it costs *)

Section CacheAccounting.
Context {lib : RegexpLib}.

Implicit Types (st : state) (pattern text : string) (cs : list call).

Local Arguments compile_calls : simpl never.

Lemma dom_getOrCompile st pattern :
  dom (cache (getOrCompile pattern st).2)
  = if valid pattern then {[pattern]} ∪ dom (cache st) else dom (cache st).
Proof.
  unfold getOrCompile, valid.
  destruct (cache st !! pattern) as [re|] eqn:Hlk.
  - assert (pattern ∈ dom (cache st)) by (apply elem_of_dom; eauto).
    cbn. destruct (Compile pattern); [|done].
    apply set_eq. intros k. rewrite elem_of_union, elem_of_singleton.
    split; [by right|]. by intros [->|Hk].
  - destruct (Compile pattern); cbn; [apply dom_insert_L|done].
Qed.

Lemma exec_state_regexp st pattern text :
  (exec (CallRegexp pattern text) st).2 = (getOrCompile pattern st).2.
Proof.
  cbn. pose proof (regexpFunction_state st pattern text) as Hst.
  by destruct (regexpFunction pattern text st).
Qed.

(** X1. The keys of the cache after any sequence of calls are the valid
    patterns given to [regexpFunction] since the last [ClearRegexpCache]
    (with the keys present at the start, if no clear has happened), and
    [GetCacheSize] is their number. *)
Theorem cache_keys_are_live_patterns cs st :
  dom (cache (run cs st)) = live_patterns cs (dom (cache st))
  ∧ GetCacheSize (run cs st)
    = Z.of_nat (size (live_patterns cs (dom (cache st)))).
Proof.
  assert (Hdom : ∀ cs st,
    dom (cache (run cs st)) = live_patterns cs (dom (cache st))).
  { clear. induction cs as [|c cs IH]; intros st; [done|].
    cbn [run live_patterns]. rewrite IH.
    destruct c as [pattern text| |].
    - by rewrite exec_state_regexp, dom_getOrCompile.
    - cbn. by rewrite dom_empty_L.
    - done. }
  split; [apply Hdom|].
  unfold GetCacheSize. by rewrite <- Hdom, size_dom.
Qed.

Lemma compile_calls_cons pattern q (m : gmap string ptr) l :
  compile_calls pattern (State m (q :: l))
  = if decide (q = pattern)
    then S (compile_calls pattern (State m l))
    else compile_calls pattern (State m l).
Proof.
  unfold compile_calls. cbn [compiles]. rewrite filter_cons.
  by destruct (decide (q = pattern)).
Qed.

(** The number of compilations of a valid pattern, plus one while the
    pattern is not cached, never grows in the lookup-or-compile phase. *)
Lemma getOrCompile_cost st q pattern r :
  Compile pattern = inl r →
  (compile_calls pattern (getOrCompile q st).2
   + match cache (getOrCompile q st).2 !! pattern with
     | Some _ => 0
     | None => 1
     end
   ≤ compile_calls pattern st
     + match cache st !! pattern with Some _ => 0 | None => 1 end)%nat.
Proof.
  intros Hc. unfold getOrCompile. destruct st as [m l]. cbn.
  destruct (m !! q) as [re|] eqn:Hq; [done|].
  destruct (decide (q = pattern)) as [->|Hne].
  - rewrite Hc. cbn. rewrite compile_calls_cons, lookup_insert_eq, Hq.
    rewrite decide_True by done. unfold compile_calls. cbn [compiles]. lia.
  - destruct (Compile q); cbn; rewrite compile_calls_cons;
      rewrite decide_False by done; [|done].
    rewrite lookup_insert_ne by done. done.
Qed.

(** X2. A valid pattern is compiled at most once as long as the cache is not
    cleared: over any sequence of calls [regexp.Compile] runs on it at
    most once more than [ClearRegexpCache] is called, and not even that
    once more when the pattern is cached at the start. *)
Theorem compiled_once_per_clear cs st pattern r :
  Compile pattern = inl r →
  (compile_calls pattern (run cs st)
   ≤ compile_calls pattern st + clear_calls cs
     + match cache st !! pattern with Some _ => 0 | None => 1 end)%nat.
Proof.
  intros Hc.
  assert (Hcost : ∀ cs st,
    (compile_calls pattern (run cs st)
     + match cache (run cs st) !! pattern with Some _ => 0 | None => 1 end
     ≤ compile_calls pattern st + clear_calls cs
       + match cache st !! pattern with Some _ => 0 | None => 1 end)%nat).
  { clear cs st. induction cs as [|c cs IH]; intros st; [cbn; lia|].
    cbn [run]. etrans; [apply IH|].
    destruct c as [q text| |].
    - rewrite exec_state_regexp.
      pose proof (getOrCompile_cost st q pattern r Hc). cbn. lia.
    - cbn. rewrite lookup_empty. unfold compile_calls. cbn.
      destruct (cache st !! pattern); lia.
    - cbn. lia. }
  specialize (Hcost cs st).
  destruct (cache (run cs st) !! pattern); lia.
Qed.

(** X3. A pattern that [regexp.Compile] rejects is compiled anew by every
    call of [regexpFunction] on it, and never enters the cache. *)
Theorem invalid_compiled_every_call cs st pattern e :
  Compile pattern = inr e →
  cache st !! pattern = None →
  compile_calls pattern (run cs st)
  = (compile_calls pattern st + regexp_calls pattern cs)%nat
  ∧ cache (run cs st) !! pattern = None.
Proof.
  intros Hc. revert st. induction cs as [|c cs IH]; intros st Hmiss.
  - cbn. split; [lia|done].
  - cbn [run regexp_calls]. destruct c as [q text| |].
    + rewrite exec_state_regexp. unfold getOrCompile.
      destruct st as [m l]. cbn in *.
      destruct (decide (q = pattern)) as [->|Hne].
      * rewrite Hmiss, Hc. cbn [snd].
        destruct (IH (State m (pattern :: l)) Hmiss) as [-> ->].
        rewrite compile_calls_cons, decide_True by done.
        unfold compile_calls. cbn [compiles]. split; [lia|done].
      * destruct (m !! q) as [re|] eqn:Hq; [by apply IH|].
        destruct (Compile q) as [rq|eq]; cbn [snd].
        -- destruct (IH (State (<[q := Ptr (length l) rq]> m) (q :: l)))
             as [-> ->]; [cbn; by rewrite lookup_insert_ne|].
           rewrite compile_calls_cons, decide_False by done.
           unfold compile_calls. cbn [compiles]. done.
        -- destruct (IH (State m (q :: l)) Hmiss) as [-> ->].
           rewrite compile_calls_cons, decide_False by done.
           unfold compile_calls. cbn [compiles]. done.
    + apply (IH (ClearRegexpCache st)). apply lookup_empty.
    + by apply IH.
Qed.


End CacheAccounting.

(** ** Calls that run side by side *)

Section Interleavings.
Context {lib : RegexpLib}.

Implicit Types (st : state) (t : thread) (c : config) (acts : list action).

Local Arguments compile_calls : simpl never.

Lemma step_thread_args t st :
  t_pattern (step_thread t st).1 = t_pattern t
  ∧ t_text (step_thread t st).1 = t_text t.
Proof.
  unfold step_thread. destruct t as [p x []]; cbn; try done.
  - by destruct (cache st !! p).
  - by destruct (Compile p).
Qed.

(** One step keeps the cache and the stepping thread right. *)
Lemma step_thread_sound t st :
  cache_sound st → thread_sound t →
  cache_sound (step_thread t st).2 ∧ thread_sound (step_thread t st).1.
Proof.
  intros Hs Ht. unfold step_thread, thread_sound in *.
  destruct t as [p x [| |re|re|r]]; cbn in *.
  - destruct (cache st !! p) as [re|] eqn:Hlk; cbn; [|done].
    split; [done|]. by apply Hs.
  - destruct (Compile p) as [r|e] eqn:Hc; cbn; [done|].
    split; [done|]. unfold regexp_uncached. by rewrite Hc.
  - split; [|done]. intros q re'. cbn. rewrite lookup_insert.
    case_decide as Hq; [|by apply Hs]. intros [= <-]. by subst q.
  - split; [done|]. unfold regexp_uncached. rewrite Ht.
    by destruct (MatchString (deref re) x).
  - done.
Qed.

Lemma act_sound a c : config_sound c → config_sound (act a c).
Proof.
  intros [Hs Hts]. destruct a as [i|]; cbn.
  - unfold sched_step. destruct (threads c !! i) as [t|] eqn:Hi; [|done].
    assert (Ht : thread_sound t) by (eapply Forall_lookup_1; eauto).
    destruct (step_thread_sound t (shared c) Hs Ht) as [Hs' Ht'].
    destruct (step_thread t (shared c)) as [t' st']. cbn in *.
    split; [done|]. by apply Forall_insert.
  - split; [apply cache_sound_clear|done].
Qed.

Lemma run_actions_sound acts c :
  config_sound c → config_sound (run_actions acts c).
Proof.
  revert c. induction acts as [|a acts IH]; intros c Hc; [done|].
  cbn. by apply IH, act_sound.
Qed.

Lemma start_sound calls st : cache_sound st → config_sound (start calls st).
Proof.
  intros Hs. split; [done|]. cbn. apply Forall_forall.
  intros t Ht. apply list_elem_of_fmap in Ht as (c & -> & _). done.
Qed.

(** No action changes the arguments of any call. *)
Lemma act_args a c :
  (λ t, (t_pattern t, t_text t)) <$> threads (act a c)
  = (λ t, (t_pattern t, t_text t)) <$> threads c.
Proof.
  destruct a as [i|]; cbn; [|done].
  unfold sched_step. destruct (threads c !! i) as [t|] eqn:Hi; [|done].
  destruct (step_thread_args t (shared c)) as [Hp Hx].
  destruct (step_thread t (shared c)) as [t' st']. cbn in *.
  rewrite list_fmap_insert. apply list_insert_id.
  rewrite list_lookup_fmap, Hi. cbn. by rewrite Hp, Hx.
Qed.

Lemma run_actions_args acts c :
  (λ t, (t_pattern t, t_text t)) <$> threads (run_actions acts c)
  = (λ t, (t_pattern t, t_text t)) <$> threads c.
Proof.
  revert c. induction acts as [|a acts IH]; intros c; [done|].
  cbn. by rewrite IH, act_args.
Qed.

Lemma start_args calls st :
  (λ t, (t_pattern t, t_text t)) <$> threads (start calls st) = calls.
Proof.
  cbn. induction calls as [|[p x] calls IH]; [done|].
  cbn. by rewrite IH.
Qed.

Lemma run_actions_lookup acts calls st i t :
  threads (run_actions acts (start calls st)) !! i = Some t →
  calls !! i = Some (t_pattern t, t_text t).
Proof.
  intros Hi.
  rewrite <- (start_args calls st), <- (run_actions_args acts).
  by rewrite list_lookup_fmap, Hi.
Qed.

Lemma interleaved_results_correct_aux cs acts calls i t :
  threads (run_actions acts (start calls (run cs init))) !! i = Some t →
  calls !! i = Some (t_pattern t, t_text t) ∧ thread_sound t.
Proof.
  intros Hi. split; [by eapply run_actions_lookup|].
  assert (Hsound : config_sound
            (run_actions acts (start calls (run cs init)))).
  { apply run_actions_sound, start_sound, cache_sound_run, cache_sound_init. }
  destruct Hsound as [_ Hts]. by eapply Forall_lookup_1.
Qed.

(** X5. Whatever the interleaving of any number of calls with one another and
    with [ClearRegexpCache], started after any sequence of calls, a call
    that has returned has returned what an uncached evaluation of its
    pattern on its text returns. *)
Theorem interleaved_results_correct cs acts calls i t r :
  threads (run_actions acts (start calls (run cs init))) !! i = Some t →
  t_pc t = Returned r →
  calls !! i = Some (t_pattern t, t_text t)
  ∧ r = regexp_uncached (t_pattern t) (t_text t).
Proof.
  intros Hi Hpc.
  destruct (interleaved_results_correct_aux cs acts calls i t Hi) as [Hc Ht].
  split; [done|]. unfold thread_sound in Ht. by rewrite Hpc in Ht.
Qed.

(** X6. At every instant of every such interleaving, each entry of the cache
    is a compilation of its own key. *)
Theorem interleaved_cache_sound cs acts calls :
  cache_sound (shared (run_actions acts (start calls (run cs init)))).
Proof.
  apply run_actions_sound, start_sound, cache_sound_run, cache_sound_init.
Qed.

(** *** Progress *)

Lemma pc_rank_step t st :
  (pc_rank (t_pc (step_thread t st).1) ≤ pred (pc_rank (t_pc t)))%nat.
Proof.
  unfold step_thread. destruct t as [p x [| |re|re|r]]; cbn; try lia.
  - destruct (cache st !! p); cbn; lia.
  - destruct (Compile p); cbn; lia.
Qed.

Lemma act_rank a c i :
  (thread_rank i (act a c)
   ≤ thread_rank i c - steps_of i [a])%nat.
Proof.
  unfold thread_rank. destruct a as [j|]; cbn; [|lia].
  unfold sched_step. destruct (threads c !! j) as [t|] eqn:Hj.
  - pose proof (pc_rank_step t (shared c)) as Hstep.
    destruct (step_thread t (shared c)) as [t' st']. cbn in *.
    destruct (decide (j = i)) as [->|Hne].
    + rewrite list_lookup_insert_eq by (by eapply lookup_lt_Some).
      rewrite Hj. lia.
    + rewrite list_lookup_insert_ne by done. lia.
  - destruct (decide (j = i)) as [->|Hne]; [|lia]. rewrite Hj. lia.
Qed.

Lemma run_actions_rank acts c i :
  (thread_rank i (run_actions acts c)
   ≤ thread_rank i c - steps_of i acts)%nat.
Proof.
  revert c. induction acts as [|a acts IH]; intros c; [cbn; lia|].
  cbn [run_actions]. etrans; [apply IH|].
  pose proof (act_rank a c i) as Ha.
  assert (Hsplit : steps_of i (a :: acts)
                   = (steps_of i [a] + steps_of i acts)%nat).
  { destruct a as [j|]; cbn; [|done]. by destruct (decide (j = i)). }
  lia.
Qed.

(** X7. A call needs no more than four steps of its own, whatever the other
    calls and [ClearRegexpCache] do in between: once it has taken four, it
    has returned, and with the result of an uncached evaluation. *)
Theorem call_returns_within_four_steps cs acts calls i pattern text :
  calls !! i = Some (pattern, text) →
  (4 ≤ steps_of i acts)%nat →
  threads (run_actions acts (start calls (run cs init))) !! i
  = Some (Thread pattern text (Returned (regexp_uncached pattern text))).
Proof.
  intros Hcall Hsteps.
  set (final := run_actions acts (start calls (run cs init))).
  pose proof (run_actions_args acts (start calls (run cs init))) as Hargs.
  rewrite start_args in Hargs. fold final in Hargs.
  assert (Hi : ∃ t, threads final !! i = Some t) .
  { apply lookup_lt_is_Some.
    rewrite <- (length_fmap (λ t, (t_pattern t, t_text t))), Hargs.
    by eapply lookup_lt_Some. }
  destruct Hi as [t Hi].
  assert (Harg : (t_pattern t, t_text t) = (pattern, text)).
  { assert (Hl : ((λ t, (t_pattern t, t_text t)) <$> threads final) !! i
                 = Some (t_pattern t, t_text t))
      by (by rewrite list_lookup_fmap, Hi).
    rewrite Hargs, Hcall in Hl. congruence. }
  injection Harg as Hp Hx.
  pose proof (run_actions_rank acts (start calls (run cs init)) i) as Hrank.
  fold final in Hrank. unfold thread_rank in Hrank. rewrite Hi in Hrank.
  assert (Hstart : (thread_rank i (start calls (run cs init)) ≤ 4)%nat).
  { unfold thread_rank. cbn. rewrite list_lookup_fmap, Hcall. cbn. lia. }
  destruct (interleaved_results_correct_aux cs acts calls i t Hi)
    as [_ Ht].
  transitivity (Some t); [exact Hi|]. f_equal.
  clear Hi Hargs. unfold thread_sound in Ht. unfold thread_rank in Hstart.
  destruct t as [p x pc0]. cbn [t_pattern t_text t_pc] in *. subst p x.
  destruct pc0 as [| |re|re|r]; cbn [pc_rank] in Hrank; try lia.
  by subst r.
Qed.

(** *** The price of a race *)

Lemma sum_list_insert {A} (f : A → nat) (l : list A) i x y :
  l !! i = Some x →
  (sum_list (f <$> <[i := y]> l) + f x = sum_list (f <$> l) + f y)%nat.
Proof.
  revert i. induction l as [|a l IH]; intros i Hi; [done|].
  destruct i as [|i]; csimpl in *.
  - injection Hi as ->. lia.
  - specialize (IH i Hi). lia.
Qed.

Lemma step_thread_cost t st pattern :
  (compile_calls pattern (step_thread t st).2
   + may_compile pattern (step_thread t st).1
   ≤ compile_calls pattern st + may_compile pattern t)%nat.
Proof.
  unfold step_thread, may_compile. destruct st as [m l].
  destruct t as [p x [| |re|re|r]]; cbn.
  - destruct (m !! p); cbn; destruct (decide (p = pattern)); lia.
  - destruct (Compile p); cbn; rewrite compile_calls_cons;
      destruct (decide (p = pattern)); unfold compile_calls; cbn; lia.
  - destruct (decide (p = pattern)); unfold compile_calls; cbn; lia.
  - destruct (decide (p = pattern)); lia.
  - lia.
Qed.

Lemma act_cost a c pattern :
  (compile_calls pattern (shared (act a c))
   + sum_list (may_compile pattern <$> threads (act a c))
   ≤ compile_calls pattern (shared c)
     + sum_list (may_compile pattern <$> threads c))%nat.
Proof.
  destruct a as [i|]; cbn.
  - unfold sched_step. destruct (threads c !! i) as [t|] eqn:Hi; [|done].
    pose proof (step_thread_cost t (shared c) pattern) as Hstep.
    pose proof (sum_list_insert (may_compile pattern) (threads c) i t
                  (step_thread t (shared c)).1 Hi) as Hsum.
    destruct (step_thread t (shared c)) as [t' st']. cbn in *. lia.
  - unfold compile_calls. cbn. lia.
Qed.

Lemma start_may_compile calls st pattern :
  sum_list (may_compile pattern <$> threads (start calls st))
  = callers pattern calls.
Proof.
  unfold callers, start. cbn [threads].
  induction calls as [|[p x] calls IH]; [done|].
  rewrite filter_cons. csimpl. rewrite IH.
  unfold may_compile. cbn [enter t_pattern t_pc fst].
  by destruct (decide (p = pattern)).
Qed.

(** X8. Racing calls can repeat a compilation, but each call compiles at most
    once: over any interleaving, [regexp.Compile] runs on a pattern at most
    as many times more as there are calls on that pattern. *)
Theorem interleaved_compile_bound acts calls st pattern :
  (compile_calls pattern (shared (run_actions acts (start calls st)))
   ≤ compile_calls pattern st + callers pattern calls)%nat.
Proof.
  assert (Hcost : ∀ acts c,
    (compile_calls pattern (shared (run_actions acts c))
     + sum_list (may_compile pattern <$> threads (run_actions acts c))
     ≤ compile_calls pattern (shared c)
       + sum_list (may_compile pattern <$> threads c))%nat).
  { clear. induction acts as [|a acts IH]; intros c; [done|].
    cbn [run_actions]. etrans; [apply IH|]. apply act_cost. }
  specialize (Hcost acts (start calls st)).
  rewrite start_may_compile in Hcost. cbn [shared start] in Hcost. lia.
Qed.

(** *** Calls made one after the other *)

Lemma run_schedule_app s1 s2 c :
  run_schedule (s1 ++ s2) c = run_schedule s2 (run_schedule s1 c).
Proof.
  revert c. induction s1 as [|i s1 IH]; intros c; [done|]. cbn. apply IH.
Qed.

Lemma sched_step_middle (pre post : list thread) t st :
  sched_step (length pre) (Config (pre ++ t :: post) st)
  = Config (pre ++ (step_thread t st).1 :: post) (step_thread t st).2.
Proof.
  unfold sched_step. cbn [threads shared].
  rewrite list_lookup_middle by done.
  destruct (step_thread t st) as [t' st']. cbn [fst snd]. f_equal.
  rewrite insert_app_r_alt by lia. by rewrite Nat.sub_diag.
Qed.

(** Four uninterrupted steps of a call, wherever its thread sits among the
    others, are one call of [regexpFunction]. *)
Lemma solo_at (pre post : list thread) pattern text st :
  run_schedule (replicate 4 (length pre))
    (Config (pre ++ enter pattern text :: post) st)
  = Config (pre ++ Thread pattern text
                     (Returned (regexpFunction pattern text st).1) :: post)
           (regexpFunction pattern text st).2.
Proof.
  unfold regexpFunction, getOrCompile. destruct st as [m l].
  cbn [replicate run_schedule cache compiles].
  rewrite sched_step_middle. cbn [step_thread enter t_pc t_pattern t_text cache].
  destruct (m !! pattern) as [re|] eqn:Hlk; cbn [fst snd].
  - rewrite sched_step_middle. cbn [step_thread t_pc t_pattern t_text fst snd].
    destruct (MatchString (deref re) text);
      by rewrite !sched_step_middle.
  - rewrite sched_step_middle.
    cbn [step_thread t_pc t_pattern t_text cache compiles].
    destruct (Compile pattern) as [r|e]; cbn [fst snd].
    + rewrite sched_step_middle.
      cbn [step_thread t_pc t_pattern t_text cache compiles fst snd].
      rewrite sched_step_middle.
      cbn [step_thread t_pc t_pattern t_text deref fst snd].
      by destruct (MatchString r text).
    + by rewrite !sched_step_middle.
Qed.

(** X9. Sequential execution is one of the interleavings: under the schedule
    that lets each call run to its end before the next one starts, the
    threads return what the calls return when made one after the other,
    and the package is left in the same state. *)
Theorem serial_schedule_is_sequential calls st :
  run_schedule (serial 0 (length calls)) (start calls st)
  = Config (seq_threads calls st) (run (seq_calls calls) st).
Proof.
  assert (Hgen : ∀ calls (pre : list thread) st,
    run_schedule (serial (length pre) (length calls))
      (Config (pre ++ map (λ pt, enter pt.1 pt.2) calls) st)
    = Config (pre ++ seq_threads calls st) (run (seq_calls calls) st)).
  { clear. induction calls as [|[p x] calls IH]; intros pre st; [done|].
    cbn [length serial map seq_threads seq_calls run fst snd].
    rewrite run_schedule_app.
    change [length pre; length pre; length pre; length pre]
      with (replicate 4 (length pre)).
    rewrite solo_at.
    assert (Hst : (exec (CallRegexp p x) st).2 = (regexpFunction p x st).2).
    { cbn. by destruct (regexpFunction p x st). }
    rewrite Hst.
    set (t := Thread p x (Returned (regexpFunction p x st).1)).
    specialize (IH (pre ++ [t])%list (regexpFunction p x st).2).
    rewrite length_app, Nat.add_1_r, <- !app_assoc in IH. exact IH. }
  apply (Hgen calls []).
Qed.

End Interleavings.

(** ** Registration *)

Section RegistrationProperties.
Context {lib : RegexpLib} {host : SqlHost}.

(** What the callback of [conn.Raw] does: nothing, or one registration of
    [regexpFunction] under the name regexp, declared pure. *)
Lemma register_callback_calls (dc : DriverConn) :
  match as_sqlite dc with
  | None => register_callback dc = (Some ErrBadConn, [])
  | Some sc =>
      register_callback dc
      = (RegisterFunc sc "regexp" true,
         [SqliteRegisterFunc sc "regexp" regexpFunction true])
  end.
Proof. unfold register_callback. by destruct (as_sqlite dc). Qed.

(** The calls of [RegisterRegexpFunction], in order. *)
Lemma RegisterRegexpFunction_calls (db : DB) :
  match db_Conn db with
  | inr e => RegisterRegexpFunction db = (Some e, [DbConn db])
  | inl conn =>
      ∃ body,
        (RegisterRegexpFunction db).2
        = ([DbConn db; ConnRaw conn] ++ body ++ [ConnClose conn])%list
        ∧ (body = []
           ∨ ∃ sc, body
                   = [SqliteRegisterFunc sc "regexp" regexpFunction true])
  end.
Proof.
  unfold RegisterRegexpFunction.
  destruct (db_Conn db) as [conn|e]; [|done].
  destruct (conn_Raw conn) as [dc|e]; [|exists []; by split; [|left]].
  pose proof (register_callback_calls dc) as Hcb.
  destruct (as_sqlite dc) as [sc|]; rewrite Hcb; cbn.
  - exists [SqliteRegisterFunc sc "regexp" regexpFunction true].
    split; [done|]. right. by exists sc.
  - exists []. split; [done|by left].
Qed.

(** X10. [RegisterRegexpFunction] gives back the connection it takes.  When
    [db.Conn] fails, that is its only call and its error is returned.
    Otherwise the connection is used by [conn.Raw] and closed by the last
    call, on every path; in between the function is registered at most
    once, as regexp, pure, with [regexpFunction] as its body. *)
Theorem RegisterRegexpFunction_releases_connection (db : DB) :
  match db_Conn db with
  | inr e => RegisterRegexpFunction db = (Some e, [DbConn db])
  | inl conn =>
      last (RegisterRegexpFunction db).2 = Some (ConnClose conn)
      ∧ ∃ body,
          (RegisterRegexpFunction db).2
          = ([DbConn db; ConnRaw conn] ++ body ++ [ConnClose conn])%list
          ∧ (body = []
             ∨ ∃ sc, body
                     = [SqliteRegisterFunc sc "regexp" regexpFunction true])
  end.
Proof.
  pose proof (RegisterRegexpFunction_calls db) as Hcalls.
  destruct (db_Conn db) as [conn|e]; [|done].
  destruct Hcalls as (body & Htr & Hbody).
  split; [|by exists body].
  rewrite Htr. destruct Hbody as [->|[sc ->]]; done.
Qed.

(** X11. [RegisterRegexpFunction] returns nil exactly when a connection was
    obtained, [conn.Raw] handed over a SQLite connection, and
    [RegisterFunc] accepted the function on it. *)
Theorem RegisterRegexpFunction_succeeds_iff (db : DB) :
  (RegisterRegexpFunction db).1 = None
  ↔ ∃ conn dc sc,
      db_Conn db = inl conn ∧ conn_Raw conn = inl dc
      ∧ as_sqlite dc = Some sc ∧ RegisterFunc sc "regexp" true = None.
Proof.
  unfold RegisterRegexpFunction, register_callback.
  destruct (db_Conn db) as [conn|e] eqn:Hconn; cbn.
  - destruct (conn_Raw conn) as [dc|e] eqn:Hraw; cbn.
    + destruct (as_sqlite dc) as [sc|] eqn:Hsc; cbn.
      * split; [intros Hok; by exists conn, dc, sc|].
        intros (conn' & dc' & sc' & Hconn' & Hraw' & Hsc' & Hok).
        congruence.
      * split; [done|].
        intros (conn' & dc' & sc' & Hconn' & Hraw' & Hsc' & Hok).
        congruence.
    + split; [done|].
      intros (conn' & dc' & sc' & Hconn' & Hraw' & Hsc' & Hok).
      congruence.
  - split; [done|].
    intros (conn' & dc' & sc' & Hconn' & Hraw' & Hsc' & Hok).
    congruence.
Qed.

(** X12. [OpenWithRegexp] opens the data source it is given with the sqlite3
    driver and returns either a handle or an error, never both and never
    neither.  It returns the handle when the registration succeeded, and
    then it has not closed it; when the registration failed it returns that
    error, and closing the handle is the last thing it did; when
    [sql.Open] failed it returns that error and has done nothing else. *)
Theorem OpenWithRegexp_handle_or_error (dataSourceName : string) :
  head (OpenWithRegexp dataSourceName).2
  = Some (SqlOpen "sqlite3" dataSourceName)
  ∧ match (OpenWithRegexp dataSourceName).1 with
    | (Some db, None) =>
        sql_Open "sqlite3" dataSourceName = inl db
        ∧ (RegisterRegexpFunction db).1 = None
        ∧ Forall (λ c, ∀ db', c ≠ DbClose db')
                 (OpenWithRegexp dataSourceName).2
    | (None, Some e) =>
        match sql_Open "sqlite3" dataSourceName with
        | inr e' =>
            e = e'
            ∧ (OpenWithRegexp dataSourceName).2
              = [SqlOpen "sqlite3" dataSourceName]
        | inl db =>
            (RegisterRegexpFunction db).1 = Some e
            ∧ last (OpenWithRegexp dataSourceName).2 = Some (DbClose db)
        end
    | _ => False
    end.
Proof.
  unfold OpenWithRegexp.
  destruct (sql_Open "sqlite3" dataSourceName) as [db|e]; [|done].
  pose proof (RegisterRegexpFunction_calls db) as Hcalls.
  destruct (RegisterRegexpFunction db) as [[e|] calls] eqn:Hreg; cbn.
  - split; [done|]. split; [done|].
    rewrite app_comm_cons. apply last_snoc.
  - split; [done|]. split; [done|]. split; [by rewrite Hreg|].
    apply Forall_cons. split; [done|].
    destruct (db_Conn db) as [conn|e]; [|done].
    destruct Hcalls as (body & Htr & Hbody). cbn in Htr. subst calls.
    destruct Hbody as [->|[sc ->]]; cbn; repeat constructor; done.
Qed.

End RegistrationProperties.

(** ** The model at work on concrete patterns *)

#[local] Existing Instance RE2Fragment.lib.

(** The table of [TestRegexpFunction]. *)
Example test_regexp_function :
  map (λ pt, (regexpFunction pt.1 pt.2 init).1)
      [("^hello", "hello world"); ("^hello", "world hello");
       ("world$", "hello world"); ("world$", "world hello");
       ("\d+", "abc123def"); ("\d+", "abcdef");
       ("[a-z]+", "ABC"); ("[a-z]+", "abc");
       ("phone|mobile", "smartphone"); ("phone|mobile", "tablet")]
  = map (λ n, (n, None)) [1; 0; 1; 0; 1; 0; 0; 1; 1; 0]%Z.
Proof. reflexivity. Qed.

(** [TestRegexpCache]: sizes 0, 1, 1, 2 along the calls of the test. *)
Example test_regexp_cache :
  let s0 := ClearRegexpCache init in
  let s1 := (regexpFunction "test" "test" s0).2 in
  let s2 := (regexpFunction "test" "another test" s1).2 in
  let s3 := (regexpFunction "different" "test" s2).2 in
  map GetCacheSize [s0; s1; s2; s3] = [0; 1; 1; 2]%Z.
Proof. reflexivity. Qed.

Lemma regexpFunction_correct_witness :
  std_match "^ap" "apple" = Some true
  ∧ (regexpFunction "^ap" "apple"
       (run [CallRegexp "^ap" "banana"; CallClear; CallRegexp "[" "x"]
            init)).1
    = (1%Z, None).
Proof.
  split; [reflexivity|].
  apply (regexpFunction_correct (lib := RE2Fragment.lib) _ "^ap" "apple" true).
  reflexivity.
Defined.

Lemma invalid_pattern_not_cached_witness :
  Compile "[" = inr "missing closing ]"
  ∧ let st := run [CallRegexp "\d+" "abc123"] init in
    (regexpFunction "[" "anything" st).1.2 = Some "missing closing ]"
    ∧ GetCacheSize (regexpFunction "[" "anything" st).2 = GetCacheSize st.
Proof.
  split; [reflexivity|]. intros st.
  destruct (invalid_pattern_not_cached (lib := RE2Fragment.lib)
              [CallRegexp "\d+" "abc123"]
              "[" "anything" "missing closing ]" eq_refl)
    as (Herr & Hsize & _).
  split; [exact Herr|exact Hsize].
Defined.

Lemma regexpFunction_propagates_error_witness :
  cache init !! "[" = None
  ∧ Compile "[" = inr "missing closing ]"
  ∧ (regexpFunction "[" "anything" init).1 = (0%Z, Some "missing closing ]").
Proof.
  split; [reflexivity|]. split; [reflexivity|].
  destruct (regexpFunction_propagates_error (lib := RE2Fragment.lib)
              init "[" "anything" "missing closing ]" eq_refl eq_refl)
    as (Hres & _).
  exact Hres.
Defined.

Lemma getOrCompile_twice_witness :
  Compile "\d+" = inl [[(RE2Fragment.Class false RE2Fragment.digit,
                         RE2Fragment.Plus)]]
  ∧ GetCacheSize (getOrCompile "\d+" (getOrCompile "\d+" init).2).2
    = GetCacheSize (getOrCompile "\d+" init).2.
Proof.
  split; [reflexivity|].
  destruct (getOrCompile_twice (lib := RE2Fragment.lib) init "\d+" _ eq_refl)
    as (_ & Hsize & _).
  exact Hsize.
Defined.

Lemma clear_then_recompile_witness :
  let st := run [CallRegexp "\d+" "abc123"; CallRegexp "^ap" "apple"] init in
  is_Some (cache st !! "\d+")
  ∧ GetCacheSize st = 2%Z
  ∧ GetCacheSize (ClearRegexpCache st) = 0%Z
  ∧ GetCacheSize (regexpFunction "\d+" "xyz" (ClearRegexpCache st)).2 = 1%Z.
Proof.
  intros st.
  assert (Hcached : is_Some (cache st !! "\d+")) by (eexists; reflexivity).
  split; [exact Hcached|]. split; [reflexivity|].
  destruct (clear_then_recompile (lib := RE2Fragment.lib) st "\d+" "xyz" _
              Hcached eq_refl)
    as (_ & Hzero & _ & _ & _ & Hone).
  split; [exact Hzero|exact Hone].
Defined.

Lemma race_last_writer_wins_witness :
  cache init !! "a+" = None
  ∧ (∃ r, Compile "a+" = inl r)
  ∧ let c4 := run_schedule [0; 1; 0; 1]
                (Config [enter "a+" "caab"; enter "a+" "b"] init) in
    addr <$> cache (shared (run_schedule [0] c4)) !! "a+" = Some 0
    ∧ addr <$> cache (shared (run_schedule [0; 1] c4)) !! "a+" = Some 1.
Proof.
  split; [reflexivity|]. split; [eexists; reflexivity|]. intros c4.
  destruct (race_last_writer_wins (lib := RE2Fragment.lib) init "a+" "caab"
              "b" _ eq_refl eq_refl)
    as (_ & _ & Horder).
  destruct (Horder 0 1 (or_introl (conj eq_refl eq_refl)))
    as (Hfirst & Hlast & _).
  unfold c4. rewrite Hfirst, Hlast. split; reflexivity.
Defined.

(** C8 as the specification states it fails: thread 0 takes the exclusive
    lock first, and the cache ends with the object that thread 1 compiled
    (address 1), not with the one of thread 0 (address 0). *)
Lemma first_writer_loses :
  ¬ first_writer_wins
      (run_schedule [0; 1; 0; 1]
         (Config [enter "a+" "caab"; enter "a+" "b"] init))
      0 1.
Proof.
  rewrite (race_ready (lib := RE2Fragment.lib) init "a+" "caab" "b" _
             eq_refl eq_refl).
  intros Hwins.
  specialize (Hwins _ _ _ _ eq_refl eq_refl eq_refl eq_refl eq_refl).
  cbn in Hwins. rewrite lookup_insert_eq in Hwins. discriminate Hwins.
Qed.

(** *** Workloads on concrete patterns *)

Lemma compiled_once_per_clear_witness :
  Compile "\d+" = inl [[(RE2Fragment.Class false RE2Fragment.digit,
                         RE2Fragment.Plus)]]
  ∧ (compile_calls "\d+"
       (run [CallRegexp "\d+" "a1"; CallRegexp "\d+" "b"; CallClear;
             CallRegexp "\d+" "c3"; CallRegexp "\d+" "d"] init)
     ≤ compile_calls "\d+" init
       + clear_calls [CallRegexp "\d+" "a1"; CallRegexp "\d+" "b"; CallClear;
                      CallRegexp "\d+" "c3"; CallRegexp "\d+" "d"]
       + match cache init !! "\d+" with Some _ => 0 | None => 1 end)%nat.
Proof.
  split; [reflexivity|].
  exact (compiled_once_per_clear (lib := RE2Fragment.lib) _ init "\d+" _
           eq_refl).
Defined.

Lemma invalid_compiled_every_call_witness :
  Compile "[" = inr "missing closing ]"
  ∧ cache init !! "[" = None
  ∧ compile_calls "["
      (run [CallRegexp "[" "x"; CallRegexp "a" "a"; CallRegexp "[" "y"] init)
    = (compile_calls "[" init
       + regexp_calls "["
           [CallRegexp "[" "x"; CallRegexp "a" "a"; CallRegexp "[" "y"])%nat.
Proof.
  split; [reflexivity|]. split; [reflexivity|].
  exact (proj1 (invalid_compiled_every_call (lib := RE2Fragment.lib)
                  _ init "[" "missing closing ]" eq_refl eq_refl)).
Defined.


Lemma interleaved_results_correct_witness :
  threads
    (run_actions
       [ActStep 0; ActStep 1; ActStep 0; ActStep 1; ActStep 0; ActClear;
        ActStep 1; ActStep 0; ActStep 1]
       (start [("a+", "caab"); ("a+", "b")] (run [] init))) !! 1
  = Some (Thread "a+" "b" (Returned (0%Z, None)))
  ∧ (0%Z, None) = regexp_uncached "a+" "b".
Proof.
  assert (Hi :
    threads
      (run_actions
         [ActStep 0; ActStep 1; ActStep 0; ActStep 1; ActStep 0; ActClear;
          ActStep 1; ActStep 0; ActStep 1]
         (start [("a+", "caab"); ("a+", "b")] (run [] init))) !! 1
    = Some (Thread "a+" "b" (Returned (0%Z, None)))).
  { vm_cast_no_check
      (eq_refl (Some (Thread "a+" "b" (Returned (0%Z, None))))). }
  split; [exact Hi|].
  exact (proj2 (interleaved_results_correct (lib := RE2Fragment.lib)
                  [] _ _ 1 _ (0%Z, None) Hi eq_refl)).
Defined.

Lemma call_returns_within_four_steps_witness :
  [("a+", "caab"); ("a+", "b")] !! 0 = Some ("a+", "caab")
  ∧ (4 ≤ steps_of 0 [ActStep 0; ActStep 1; ActStep 0; ActStep 1; ActStep 0;
                     ActClear; ActStep 1; ActStep 0; ActStep 1])%nat
  ∧ threads
      (run_actions
         [ActStep 0; ActStep 1; ActStep 0; ActStep 1; ActStep 0; ActClear;
          ActStep 1; ActStep 0; ActStep 1]
         (start [("a+", "caab"); ("a+", "b")] (run [] init))) !! 0
    = Some (Thread "a+" "caab" (Returned (regexp_uncached "a+" "caab"))).
Proof.
  assert (Hsteps :
    (4 ≤ steps_of 0 [ActStep 0; ActStep 1; ActStep 0; ActStep 1; ActStep 0;
                     ActClear; ActStep 1; ActStep 0; ActStep 1])%nat)
    by (vm_compute; lia).
  split; [reflexivity|]. split; [exact Hsteps|].
  exact (call_returns_within_four_steps (lib := RE2Fragment.lib)
           [] _ [("a+", "caab"); ("a+", "b")] 0 "a+" "caab" eq_refl Hsteps).
Defined.
